(** * Object tracker of the dapa daemon (src/dapa_daemon/src/p2p/tracker/mod.rs)

    A shallow embedding of [ObjectTracker]: the ordered request queue, the
    expirable dedupe cache, the dispatch channel and the public operations
    and loop bodies that act on them.  Every operation is a function of the
    tracker state; the outside world (the clock, the peers' connection
    state, the outcome of a network send) is passed in explicitly. *)

From stdpp Require Import base gmap list.
From Stdlib Require Import NArith.

(** Object identities ([Hash]), peer ids, group ids and payloads are
    modelled as [nat], instants and durations (in milliseconds) as [N]. *)
Abbreviation Hash := nat.
Abbreviation Instant := N.
Abbreviation Payload := nat.

(** [PEER_TIMEOUT_REQUEST_OBJECT] of src/dapa_daemon/src/config.rs, and
    [TIME_OUT = Duration::from_millis(PEER_TIMEOUT_REQUEST_OBJECT)]. *)
Definition PEER_TIMEOUT_REQUEST_OBJECT : N := 15000%N.
Definition TIME_OUT : N := PEER_TIMEOUT_REQUEST_OBJECT.

(** [Instant::elapsed] measured at instant [now] (saturating, as in Rust). *)
Definition elapsed (now t : Instant) : N := (now - t)%N.

(** The peer collaborator: only its id is stored; whether its connection
    is closed is observed in the world at the time of the call. *)
Record Peer := mkPeer { peer_id : nat }.

(** Modelled from the spec: [Request] of p2p/tracker/request.rs (missing),
    "{ identity, target peer, optional group, optional send timestamp,
    notification slot }". *)
Record Request := mkRequest {
  req_hash : Hash;
  req_peer : Peer;
  req_group : option nat;
  req_requested : option Instant
}.

(** [Request::new]: send time unset. *)
Definition Request_new (h : Hash) (peer : Peer) (group : option nat) : Request :=
  mkRequest h peer group None.

(** [Request::set_requested]: stamps the send time. *)
Definition set_requested (now : Instant) (r : Request) : Request :=
  mkRequest (req_hash r) (req_peer r) (req_group r) (Some now).

(** The listener handed back to callers: attached to the notification slot
    of the Request of one identity. *)
Record RequestResponse := Listener { listener_hash : Hash }.

(** ** The ordered request queue

    Modelled from the spec: [dapa_common::queue::Queue] (missing), §4.4:
    an insertion-ordered key/value map; [push] appends, [get] looks up,
    [remove] deletes the key keeping the remaining order, [peek_mut] views
    the oldest entry, [extract_if] removes in order every entry satisfying
    a predicate and returns them, [clear] empties it. *)
Module Queue.

Definition t := list (Hash * Request).

Definition get (k : Hash) (q : t) : option Request :=
  snd <$> List.find (fun e => Nat.eqb (fst e) k) q.

Definition push (k : Hash) (v : Request) (q : t) : t := q ++ [(k, v)].

Definition remove (k : Hash) (q : t) : option Request * t :=
  (get k q, List.filter (fun e => negb (Nat.eqb (fst e) k)) q).

(** [get_mut] followed by an in-place update of the value. *)
Definition update (k : Hash) (f : Request -> Request) (q : t) : t :=
  List.map (fun e => if Nat.eqb (fst e) k then (fst e, f (snd e)) else e) q.

Definition peek (q : t) : option (Hash * Request) := head q.

Definition extract_if (p : Hash -> Request -> bool) (q : t) : t * t :=
  (List.filter (fun e => p (fst e) (snd e)) q,
   List.filter (fun e => negb (p (fst e) (snd e))) q).

Definition clear (q : t) : t := [].

Definition keys (q : t) : list Hash := List.map fst q.

End Queue.

(** ** Tracker state

    [queue] and [cache] are the two mutex-protected structures; [channel]
    is the content of the bounded dispatch channel and [channel_open]
    whether its receiver (the requester loop) is still alive.  [notified]
    logs the payloads delivered to listeners and [wire] the object
    requests actually transmitted (peer id, identity). *)
Record Tracker := mkTracker {
  queue : Queue.t;
  cache : gmap nat N;
  channel : list Hash;
  channel_open : bool;
  notified : list (Hash * Payload);
  wire : list (nat * Hash)
}.

Definition set_queue (q : Queue.t) (st : Tracker) : Tracker :=
  mkTracker q (cache st) (channel st) (channel_open st) (notified st) (wire st).
Definition set_cache (c : gmap nat N) (st : Tracker) : Tracker :=
  mkTracker (queue st) c (channel st) (channel_open st) (notified st) (wire st).
Definition set_channel (ch : list Hash) (st : Tracker) : Tracker :=
  mkTracker (queue st) (cache st) ch (channel_open st) (notified st) (wire st).
Definition close_channel (st : Tracker) : Tracker :=
  mkTracker (queue st) (cache st) (channel st) false (notified st) (wire st).
Definition add_notified (h : Hash) (p : Payload) (st : Tracker) : Tracker :=
  mkTracker (queue st) (cache st) (channel st) (channel_open st)
    (notified st ++ [(h, p)]) (wire st).
Definition add_wire (pid : nat) (h : Hash) (st : Tracker) : Tracker :=
  mkTracker (queue st) (cache st) (channel st) (channel_open st)
    (notified st) (wire st ++ [(pid, h)]).

(** Rust's [Result]. *)
Inductive result (A E : Type) : Type := Ok (a : A) | Err (e : E).
Arguments Ok {A E} a.
Arguments Err {A E} e.

Inductive P2pError := ChannelClosed.

(** ** ExpirableCache *)
Module ExpirableCache.

Definition insert (now : Instant) (h : Hash) (c : gmap nat N) : gmap nat N :=
  <[h := now]> c.

(** [cache.remove(hash).is_some()] *)
Definition remove (h : Hash) (c : gmap nat N) : gmap nat N * bool :=
  (delete h c, bool_decide (is_Some (c !! h))).

(** [cache.retain(|_, v| v.elapsed() < timeout)] *)
Definition clean (now : Instant) (timeout : N) (c : gmap nat N) : gmap nat N :=
  filter (fun kv : nat * N => (elapsed now kv.2 < timeout)%N) c.

End ExpirableCache.

(** ** ObjectTracker *)

(** [ObjectTracker::new]: empty queue and cache, the dispatch channel open. *)
Definition ObjectTracker_new : Tracker := mkTracker [] ∅ [] true [] [].

(** The predicate of [extract_if] in [clean_queue]: the request's group is
    the failed group, or its peer is the given peer or is disconnected, or
    it was sent more than [TIME_OUT] ago.  [closed] is the observed
    connection state of each peer id. *)
Definition clean_pred (closed : nat -> bool) (now : Instant)
    (peer_id_opt group : option nat) (_ : Hash) (request : Request) : bool :=
  match group, req_group request with
  | Some failed_group, Some request_group => Nat.eqb failed_group request_group
  | _, _ => false
  end
  || (match peer_id_opt with
      | Some p => Nat.eqb (peer_id (req_peer request)) p
      | None => false
      end
      || closed (peer_id (req_peer request)))
  || match req_requested request with
     | Some requested_at => N.ltb TIME_OUT (elapsed now requested_at)
     | None => false
     end.

(** [clean_queue]: extract the matching requests, keeping the others in
    order, and insert each extracted identity in the expirable cache. *)
Definition clean_queue (closed : nat -> bool) (now : Instant)
    (peer_id_opt group : option nat) (st : Tracker) : Tracker :=
  let '(removed, kept) :=
    Queue.extract_if (clean_pred closed now peer_id_opt group) (queue st) in
  set_cache
    (fold_left (fun c e => ExpirableCache.insert now (fst e) c) removed (cache st))
    (set_queue kept st).

(** [mark_group_as_fail] (the spec's [cancel_group]). *)
Definition mark_group_as_fail (closed : nat -> bool) (now : Instant)
    (group_id : nat) (st : Tracker) : Tracker :=
  clean_queue closed now None (Some group_id) st.

(** [handle_object_response]: the queue first, then the dedupe cache. *)
Definition handle_object_response (h : Hash) (response : Payload) (st : Tracker)
    : Tracker * result bool P2pError :=
  match Queue.remove h (queue st) with
  | (Some _, q') => (add_notified h response (set_queue q' st), Ok true)
  | (None, _) =>
      let '(c', found) := ExpirableCache.remove h (cache st) in
      if found then (set_cache c' st, Ok true) else (set_cache c' st, Ok false)
  end.

(** [REQUESTER_CHANNEL_BUFFER]: the capacity of the bounded dispatch
    channel. *)
Definition REQUESTER_CHANNEL_BUFFER : nat := 8.

(** [request_object_from_peer_with_or_get_notified]: attach to an existing
    Request, or push a new one and send its identity on the dispatch
    channel; the send fails with [ChannelClosed] once the requester loop
    has dropped the receiver.  The send is taken to complete at once: this
    is the code's behaviour while fewer than [REQUESTER_CHANNEL_BUFFER]
    identities are pending; on a full channel the caller is suspended
    after the push until the requester loop takes one, which this
    definition does not model. *)
Definition request_object_from_peer_with_or_get_notified
    (peer : Peer) (h : Hash) (group_id : option nat) (st : Tracker)
    : Tracker * result RequestResponse P2pError :=
  match Queue.get h (queue st) with
  | Some _ => (st, Ok (Listener h))
  | None =>
      let st1 := set_queue (Queue.push h (Request_new h peer group_id) (queue st)) st in
      if channel_open st1
      then (set_channel (channel st1 ++ [h]) st1, Ok (Listener h))
      else (st1, Err ChannelClosed)
  end.

(** Which branch of the [tokio::select!] between the peer's exit signal
    and [peer.send_bytes(packet)] completes. *)
Inductive SendOutcome := Sent | SendFailed | PeerExited.

(** [request_object_from_peer_internal]: stamp the send time, transmit,
    and on a closed connection or a failed send clean the queue for the
    peer and the request's group. *)
Definition request_object_from_peer_internal (closed : nat -> bool) (now : Instant)
    (outcome : SendOutcome) (request_hash : Hash) (st : Tracker) : Tracker :=
  let '(fail, st1) :=
    match Queue.get request_hash (queue st) with
    | Some req =>
        let st1 := set_queue (Queue.update request_hash (set_requested now) (queue st)) st in
        let peer := req_peer req in
        if closed (peer_id peer) then (Some (peer_id peer, req_group req), st1)
        else match outcome with
             | Sent => (None, add_wire (peer_id peer) request_hash st1)
             | SendFailed | PeerExited => (Some (peer_id peer, req_group req), st1)
             end
    | None => (None, st)
    end in
  match fail with
  | Some (pid, group) => clean_queue closed now (Some pid) group st1
  | None => st1
  end.

(** The body of one [interval.tick()] of [handler_loop]: the
    [while let Some(request) = queue.peek_mut()] loop.  Each iteration
    that does not break removes the head (its peer is the cleaned peer),
    so [S (length queue)] iterations always suffice. *)
Fixpoint handler_sweep (fuel : nat) (closed : nat -> bool) (now : Instant)
    (st : Tracker) : Tracker :=
  match fuel with
  | 0 => st
  | S fuel' =>
      match Queue.peek (queue st) with
      | Some (_, request) =>
          match req_requested request with
          | Some requested_at =>
              if N.ltb TIME_OUT (elapsed now requested_at)
              then handler_sweep fuel' closed now
                     (clean_queue closed now (Some (peer_id (req_peer request)))
                        (req_group request) st)
              else st
          | None => st
          end
      | None => st
      end
  end.

Definition handler_tick (closed : nat -> bool) (now : Instant) (st : Tracker) : Tracker :=
  handler_sweep (S (length (queue st))) closed now st.

(** [handler_loop] after [server_exit]: [queue.clear()]. *)
Definition handler_shutdown (st : Tracker) : Tracker :=
  set_queue (Queue.clear (queue st)) st.

(** One tick of [task_clean_cache]: [self.cache.clean(TIME_OUT)]. *)
Definition clean_cache_tick (now : Instant) (st : Tracker) : Tracker :=
  set_cache (ExpirableCache.clean now TIME_OUT (cache st)) st.

(** Successive ticks of [task_clean_cache] at the instants [ts]. *)
Definition clean_cache_ticks (ts : list Instant) (st : Tracker) : Tracker :=
  fold_left (fun s t => clean_cache_tick t s) ts st.

(** The tracker as a transition system: the public operations, one
    iteration of each background loop, and their exits. *)
Inductive step : Tracker -> Tracker -> Prop :=
| step_request peer h g st :
    step st (fst (request_object_from_peer_with_or_get_notified peer h g st))
| step_response h p st :
    step st (fst (handle_object_response h p st))
| step_mark_group closed now g st :
    step st (mark_group_as_fail closed now g st)
| step_requester closed now outcome h rest st :
    channel st = h :: rest ->
    step st (request_object_from_peer_internal closed now outcome h (set_channel rest st))
| step_requester_exit st :
    step st (close_channel st)
| step_handler_tick closed now st :
    step st (handler_tick closed now st)
| step_handler_exit st :
    step st (handler_shutdown st)
| step_clean_cache now st :
    step st (clean_cache_tick now st).

Inductive reachable : Tracker -> Prop :=
| reachable_new : reachable ObjectTracker_new
| reachable_step st st' : reachable st -> step st st' -> reachable st'.

(** The stopping condition of the timeout sweep: the head of the queue,
    if any, is not yet sent, or sent but not past [TIME_OUT]. *)
Definition head_settled (now : Instant) (q : Queue.t) : Prop :=
  match Queue.peek q with
  | Some (_, request) =>
      match req_requested request with
      | Some requested_at => (elapsed now requested_at <= TIME_OUT)%N
      | None => True
      end
  | None => True
  end.

(** The peers whose connection is observed closed, given by their ids. *)
Definition closed_peers (ids : list nat) : nat -> bool :=
  fun pid => existsb (Nat.eqb pid) ids.

(** Which queued Requests [mark_group_as_fail] evicts, spelled out: the
    ones tagged with the group, the ones whose peer is disconnected, and
    the ones sent more than [TIME_OUT] ago. *)
Definition cancel_group_evicts (closed : nat -> bool) (now : Instant)
    (group_id : nat) (r : Request) : bool :=
  bool_decide (req_group r = Some group_id)
  || closed (peer_id (req_peer r))
  || match req_requested r with
     | Some requested_at => N.ltb TIME_OUT (elapsed now requested_at)
     | None => false
     end.

(** A transition only shrinks the queue, and every identity it adds to
    the dedupe cache was queued before and is no longer queued after. *)
Definition evicts_only (st st' : Tracker) : Prop :=
  (forall k, In k (Queue.keys (queue st')) -> In k (Queue.keys (queue st))) /\
  (forall k, cache st !! k = None -> is_Some (cache st' !! k) ->
     In k (Queue.keys (queue st)) /\ ~ In k (Queue.keys (queue st'))).

(** ** Group ids and the requester loop *)

(** The range of a [u64]. *)
Definition U64_MODULUS : N := 18446744073709551616%N.

(** [next_group_id]: [self.group_id.fetch_add(1, Ordering::SeqCst)] on an
    [AtomicU64] returns the counter and stores its successor, wrapping
    around at [2^64]. *)
Definition next_group_id (group_id : N) : N * N :=
  (group_id, ((group_id + 1) mod U64_MODULUS)%N).

(** The ids returned by [n] successive calls, from the counter value
    [group_id]. *)
Fixpoint next_group_ids (n : nat) (group_id : N) : list N :=
  match n with
  | 0 => []
  | S n' => let '(id, group_id') := next_group_id group_id in id :: next_group_ids n' group_id'
  end.

(** [requester_loop]: each [request_receiver.recv()] yields the next
    identity of the dispatch channel, handed to
    [request_object_from_peer_internal].  Each iteration happens at its
    own instant and with its own outcome of the send; the loop stops
    when the events run out or the channel is empty. *)
Fixpoint requester_loop (closed : nat -> bool) (events : list (Instant * SendOutcome))
    (st : Tracker) : Tracker :=
  match events with
  | [] => st
  | (now, outcome) :: events' =>
      match channel st with
      | h :: rest =>
          requester_loop closed events'
            (request_object_from_peer_internal closed now outcome h (set_channel rest st))
      | [] => st
      end
  end.

(** The peer id of the Request queued for an identity (0 if none). *)
Definition queued_peer (q : Queue.t) (h : Hash) : nat :=
  match Queue.get h q with
  | Some r => peer_id (req_peer r)
  | None => 0
  end.

(** Every queued Request is stored under the hash of the object it asks for. *)
Definition queue_keyed (q : Queue.t) : Prop :=
  forall k r, In (k, r) q -> req_hash r = k.

(** Small runs. *)
Definition no_closed : nat -> bool := fun _ => false.

Example request_then_duplicate :
  let '(st1, r1) := request_object_from_peer_with_or_get_notified (mkPeer 1) 170 None ObjectTracker_new in
  let '(st2, r2) := request_object_from_peer_with_or_get_notified (mkPeer 2) 170 None st1 in
  channel st2 = [170] /\ Queue.keys (queue st2) = [170] /\ r1 = r2.
Proof. vm_compute. auto. Qed.

Example timeout_eviction :
  let st := handler_tick no_closed 20000%N
              (mkTracker [(204, mkRequest 204 (mkPeer 1) None (Some 0%N))] ∅ [] true [] []) in
  queue st = [] /\ cache st !! 204 = Some 20000%N.
Proof. vm_compute. auto. Qed.

(** ** Facts about the queue *)
Module QueueFacts.

Lemma get_Some_In k r (q : Queue.t) : Queue.get k q = Some r -> In (k, r) q.
Proof.
  unfold Queue.get. destruct (List.find _ q) as [[k' r']|] eqn:E; simpl; [|done].
  intros [= <-]. pose proof (find_some _ _ E) as [Hin Heq]. simpl in Heq.
  apply Nat.eqb_eq in Heq. by subst.
Qed.

Lemma get_None (k : Hash) (q : Queue.t) : Queue.get k q = None <-> ~ In k (Queue.keys q).
Proof.
  unfold Queue.get, Queue.keys. split.
  - destruct (List.find _ q) eqn:E; simpl; [done|]. intros _ Hin.
    apply in_map_iff in Hin as [[k' r] [Hk Hin]]. simpl in Hk. subst.
    pose proof (find_none _ _ E _ Hin) as Hf. simpl in Hf.
    by rewrite Nat.eqb_refl in Hf.
  - intros Hnin. destruct (List.find _ q) as [[k' r]|] eqn:E; simpl; [|done].
    pose proof (find_some _ _ E) as [Hin Heq]. simpl in Heq.
    apply Nat.eqb_eq in Heq. subst. exfalso. apply Hnin.
    apply in_map_iff. by exists (k, r).
Qed.

Lemma In_keys k r (q : Queue.t) : In (k, r) q -> In k (Queue.keys q).
Proof. intros H. apply in_map_iff. by exists (k, r). Qed.

Lemma keys_unique (q : Queue.t) k r r' :
  NoDup (Queue.keys q) -> In (k, r) q -> In (k, r') q -> r = r'.
Proof.
  induction q as [|[k0 r0] q IH]; simpl; [done|].
  intros Hnd. inversion Hnd as [|? ? Hnin Hnd']; subst.
  intros [Heq|Hin] [Heq'|Hin'].
  - congruence.
  - injection Heq as <- <-. exfalso. apply Hnin, list_elem_of_In. by eapply In_keys.
  - injection Heq' as <- <-. exfalso. apply Hnin, list_elem_of_In. by eapply In_keys.
  - by eapply IH.
Qed.

Lemma keys_filter_sublist f (q : Queue.t) :
  sublist (Queue.keys (List.filter f q)) (Queue.keys q).
Proof.
  unfold Queue.keys. induction q as [|e q IH]; simpl; [done|].
  destruct (f e); simpl; by constructor.
Qed.

Lemma NoDup_filter_keys f (q : Queue.t) :
  NoDup (Queue.keys q) -> NoDup (Queue.keys (List.filter f q)).
Proof.
  intros Hnd. eapply sublist_NoDup; [done|apply keys_filter_sublist].
Qed.

Lemma keys_update k f (q : Queue.t) : Queue.keys (Queue.update k f q) = Queue.keys q.
Proof.
  unfold Queue.keys, Queue.update. rewrite map_map. apply map_ext.
  intros [k' r]. simpl. by destruct (Nat.eqb k' k).
Qed.

Lemma In_filter_keys f k (q : Queue.t) :
  In k (Queue.keys (List.filter f q)) -> In k (Queue.keys q).
Proof.
  unfold Queue.keys. intros Hin. apply in_map_iff in Hin as [e [<- He]].
  apply filter_In in He as [He _]. by apply in_map.
Qed.

End QueueFacts.

(** ** Facts about [clean_queue] and the transitions *)
Module TrackerFacts.
Import QueueFacts.

Lemma fold_insert_lookup now (l : Queue.t) (m : gmap nat N) k :
  fold_left (fun c e => ExpirableCache.insert now (fst e) c) l m !! k
  = if existsb (fun e => Nat.eqb (fst e) k) l then Some now else m !! k.
Proof.
  revert m. induction l as [|[k' r] l IH]; intros m; simpl; [done|].
  rewrite IH. destruct (existsb _ l); [by rewrite orb_true_r|].
  rewrite orb_false_r. unfold ExpirableCache.insert.
  destruct (Nat.eqb_spec k' k) as [->|Hne].
  - by rewrite lookup_insert_eq.
  - by rewrite lookup_insert_ne.
Qed.

Lemma clean_queue_queue closed now p g st :
  queue (clean_queue closed now p g st)
  = List.filter (fun e => negb (clean_pred closed now p g (fst e) (snd e))) (queue st).
Proof. reflexivity. Qed.

Lemma clean_queue_cache closed now p g st k :
  cache (clean_queue closed now p g st) !! k
  = if existsb (fun e => Nat.eqb (fst e) k)
         (List.filter (fun e => clean_pred closed now p g (fst e) (snd e)) (queue st))
    then Some now else cache st !! k.
Proof. apply fold_insert_lookup. Qed.

Lemma clean_queue_NoDup closed now p g st :
  NoDup (Queue.keys (queue st)) ->
  NoDup (Queue.keys (queue (clean_queue closed now p g st))).
Proof. rewrite clean_queue_queue. apply NoDup_filter_keys. Qed.

Lemma clean_queue_keys_sub closed now p g st k :
  In k (Queue.keys (queue (clean_queue closed now p g st))) -> In k (Queue.keys (queue st)).
Proof. rewrite clean_queue_queue. apply In_filter_keys. Qed.

(** A request whose peer is the cleaned peer is always extracted. *)
Lemma clean_pred_peer closed now g k r :
  clean_pred closed now (Some (peer_id (req_peer r))) g k r = true.
Proof. unfold clean_pred. rewrite Nat.eqb_refl. by rewrite !orb_true_r. Qed.

Lemma handler_sweep_NoDup fuel closed now st :
  NoDup (Queue.keys (queue st)) ->
  NoDup (Queue.keys (queue (handler_sweep fuel closed now st))).
Proof.
  revert st. induction fuel as [|fuel IH]; intros st Hnd; simpl; [done|].
  destruct (Queue.peek (queue st)) as [[k r]|]; [|done].
  destruct (req_requested r); [|done].
  destruct (N.ltb _ _); [|done].
  apply IH, clean_queue_NoDup, Hnd.
Qed.

Lemma request_object_NoDup peer h g st :
  NoDup (Queue.keys (queue st)) ->
  NoDup (Queue.keys (queue (fst (request_object_from_peer_with_or_get_notified peer h g st)))).
Proof.
  intros Hnd. unfold request_object_from_peer_with_or_get_notified.
  destruct (Queue.get h (queue st)) eqn:Hg; [done|].
  apply get_None in Hg.
  assert (Hk : NoDup (Queue.keys (Queue.push h (Request_new h peer g) (queue st)))).
  { unfold Queue.keys, Queue.push. rewrite map_app. simpl.
    apply NoDup_app. split; [done|]. split; [|apply NoDup_singleton].
    intros x Hx Hx'. apply list_elem_of_singleton in Hx'. subst.
    by apply Hg, list_elem_of_In. }
  by destruct (channel_open _).
Qed.

Lemma handle_object_response_NoDup h p st :
  NoDup (Queue.keys (queue st)) ->
  NoDup (Queue.keys (queue (fst (handle_object_response h p st)))).
Proof.
  intros Hnd. unfold handle_object_response, Queue.remove.
  destruct (Queue.get h (queue st)); simpl; [by apply NoDup_filter_keys|].
  by destruct (bool_decide _).
Qed.

Lemma requester_NoDup closed now outcome h st :
  NoDup (Queue.keys (queue st)) ->
  NoDup (Queue.keys (queue (request_object_from_peer_internal closed now outcome h st))).
Proof.
  intros Hnd. unfold request_object_from_peer_internal.
  destruct (Queue.get h (queue st)) as [r|]; [|done].
  assert (Hu : NoDup (Queue.keys (Queue.update h (set_requested now) (queue st))))
    by (by rewrite keys_update).
  destruct (closed _); [by apply clean_queue_NoDup|].
  destruct outcome; [done| |]; by apply clean_queue_NoDup.
Qed.

(** At most one Request per identity: the queue's keys stay distinct. *)
Lemma step_NoDup st st' :
  step st st' -> NoDup (Queue.keys (queue st)) -> NoDup (Queue.keys (queue st')).
Proof.
  intros Hs Hnd. destruct Hs.
  - by apply request_object_NoDup.
  - by apply handle_object_response_NoDup.
  - by apply clean_queue_NoDup.
  - by apply requester_NoDup.
  - done.
  - by apply handler_sweep_NoDup.
  - apply NoDup_nil_2.
  - done.
Qed.

Lemma reachable_NoDup st : reachable st -> NoDup (Queue.keys (queue st)).
Proof.
  induction 1 as [|st st' _ IH Hs]; [apply NoDup_nil_2|].
  by eapply step_NoDup.
Qed.

End TrackerFacts.

(** The two branches of [handle_object_response]. *)
Module ResponseFacts.

Lemma handle_hit h p st r :
  Queue.get h (queue st) = Some r ->
  handle_object_response h p st
  = (add_notified h p
       (set_queue (List.filter (fun e => negb (Nat.eqb (fst e) h)) (queue st)) st),
     Ok true).
Proof. intros Hg. unfold handle_object_response, Queue.remove. by rewrite Hg. Qed.

Lemma handle_miss h p st :
  Queue.get h (queue st) = None ->
  handle_object_response h p st
  = (set_cache (delete h (cache st)) st, Ok (bool_decide (is_Some (cache st !! h)))).
Proof.
  intros Hg. unfold handle_object_response, Queue.remove. rewrite Hg. simpl.
  by destruct (bool_decide _).
Qed.

Lemma filter_drops_key h (q : Queue.t) :
  ~ In h (Queue.keys (List.filter (fun e => negb (Nat.eqb (fst e) h)) q)).
Proof.
  intros Hin. apply in_map_iff in Hin as [[k v] [Hk Hin]]. simpl in Hk. subst k.
  apply filter_In in Hin as [_ Hf]. simpl in Hf. by rewrite Nat.eqb_refl in Hf.
Qed.

End ResponseFacts.

(** ** Requesting an object *)

(** C1: in every reachable state the queue holds at most one Request per
    identity, and a request for an identity already queued returns a
    listener on that Request and leaves the whole tracker unchanged: no
    second Request is pushed and nothing is sent on the dispatch channel,
    so the identity is dispatched (and transmitted) once. *)
Theorem request_object_at_most_one (st : Tracker) (Hr : reachable st) :
  NoDup (Queue.keys (queue st)) /\
  forall peer h group_id,
    In h (Queue.keys (queue st)) ->
    request_object_from_peer_with_or_get_notified peer h group_id st = (st, Ok (Listener h)).
Proof.
  split; [by apply TrackerFacts.reachable_NoDup|].
  intros peer h g Hin. unfold request_object_from_peer_with_or_get_notified.
  destruct (Queue.get h (queue st)) eqn:Hg; [done|].
  by apply QueueFacts.get_None in Hg.
Qed.

Lemma request_object_at_most_one_witness :
  let st := fst (request_object_from_peer_with_or_get_notified (mkPeer 1) 170 None ObjectTracker_new) in
  reachable st /\
  (NoDup (Queue.keys (queue st)) /\
   forall peer h group_id,
     In h (Queue.keys (queue st)) ->
     request_object_from_peer_with_or_get_notified peer h group_id st = (st, Ok (Listener h))).
Proof.
  intros st.
  assert (Hr : reachable st) by (eapply reachable_step; [apply reachable_new | apply step_request]).
  split; [exact Hr | exact (request_object_at_most_one st Hr)].
Defined.

(** ** Handling a response *)

(** C2: [handle_object_response] always returns [Ok]; when the identity is
    queued it removes it, delivers the payload to its listeners and returns
    true; otherwise it leaves the queue alone, removes the identity from the
    dedupe cache and returns whether it was there. *)
Theorem handle_object_response_spec (h : Hash) (p : Payload) (st : Tracker) :
  let '(st', res) := handle_object_response h p st in
  (exists b, res = Ok b) /\
  (forall r, Queue.get h (queue st) = Some r ->
     res = Ok true /\
     ~ In h (Queue.keys (queue st')) /\
     queue st' = List.filter (fun e => negb (Nat.eqb (fst e) h)) (queue st) /\
     notified st' = notified st ++ [(h, p)] /\
     cache st' = cache st) /\
  (Queue.get h (queue st) = None ->
     res = Ok (bool_decide (is_Some (cache st !! h))) /\
     queue st' = queue st /\
     notified st' = notified st /\
     cache st' = delete h (cache st)).
Proof.
  destruct (Queue.get h (queue st)) as [r|] eqn:Hg.
  - rewrite (ResponseFacts.handle_hit h p st r Hg).
    split; [by exists true|]. split; [|done].
    intros r' _. split; [done|]. split; [apply ResponseFacts.filter_drops_key|done].
  - rewrite (ResponseFacts.handle_miss h p st Hg).
    split; [by eexists|]. split; [done|]. done.
Qed.

(** C10: the queue is checked before the dedupe cache: for an identity
    that is both queued and cached, a response returns true and removes
    only the queue entry, leaving the cache entry, so that a second
    response for it also returns true. *)
Theorem handle_object_response_queue_first (h : Hash) (p p2 : Payload) (st : Tracker)
    (Hq : In h (Queue.keys (queue st))) (Hc : is_Some (cache st !! h)) :
  let '(st1, res1) := handle_object_response h p st in
  res1 = Ok true /\
  ~ In h (Queue.keys (queue st1)) /\
  cache st1 = cache st /\
  snd (handle_object_response h p2 st1) = Ok true.
Proof.
  destruct (Queue.get h (queue st)) as [r|] eqn:Hg;
    [|by apply QueueFacts.get_None in Hg].
  rewrite (ResponseFacts.handle_hit h p st r Hg).
  split; [done|]. split; [apply ResponseFacts.filter_drops_key|]. split; [done|].
  rewrite ResponseFacts.handle_miss.
  - simpl. by rewrite bool_decide_eq_true_2.
  - apply QueueFacts.get_None, ResponseFacts.filter_drops_key.
Qed.

Lemma handle_object_response_queue_first_witness :
  let st := mkTracker [(204, Request_new 204 (mkPeer 1) None)] {[204 := 0%N]} [] true [] [] in
  In 204 (Queue.keys (queue st)) /\ is_Some (cache st !! 204) /\
  (let '(st1, res1) := handle_object_response 204 7 st in
   res1 = Ok true /\
   ~ In 204 (Queue.keys (queue st1)) /\
   cache st1 = cache st /\
   snd (handle_object_response 204 8 st1) = Ok true).
Proof.
  intros st.
  assert (Hq : In 204 (Queue.keys (queue st))) by (simpl; auto).
  assert (Hc : is_Some (cache st !! 204)) by (vm_compute; eauto).
  split; [exact Hq|]. split; [exact Hc|].
  exact (handle_object_response_queue_first 204 7 8 st Hq Hc).
Defined.

(** ** Shutdown *)

(** C9: when the handler loop exits it clears the queue in one step and
    leaves the dedupe cache as it was: no identity of the drained queue is
    moved into the cache. *)
Theorem handler_shutdown_drains (st : Tracker) :
  queue (handler_shutdown st) = [] /\
  cache (handler_shutdown st) = cache st /\
  (forall h, In h (Queue.keys (queue st)) -> cache st !! h = None ->
     cache (handler_shutdown st) !! h = None).
Proof. split; [done|]. split; [done|]. intros h _ Hn. exact Hn. Qed.

(** ** The timeout sweep *)
Module SweepFacts.
Import TrackerFacts.

Lemma handler_sweep_S fuel closed now st :
  handler_sweep (S fuel) closed now st =
  match Queue.peek (queue st) with
  | Some (_, request) =>
      match req_requested request with
      | Some requested_at =>
          if N.ltb TIME_OUT (elapsed now requested_at)
          then handler_sweep fuel closed now
                 (clean_queue closed now (Some (peer_id (req_peer request)))
                    (req_group request) st)
          else st
      | None => st
      end
  | None => st
  end.
Proof. reflexivity. Qed.

(** Cleaning for the head's peer removes at least the head. *)
Lemma clean_head_shrinks closed now k r q g st :
  queue st = (k, r) :: q ->
  length (queue (clean_queue closed now (Some (peer_id (req_peer r))) g st))
  < length (queue st).
Proof.
  intros Hq. rewrite clean_queue_queue, Hq. simpl.
  rewrite clean_pred_peer. simpl.
  apply Nat.lt_succ_r, filter_length_le.
Qed.

Lemma handler_sweep_fuel f1 f2 closed now st :
  length (queue st) < f1 -> length (queue st) < f2 ->
  handler_sweep f1 closed now st = handler_sweep f2 closed now st.
Proof.
  revert f2 st. induction f1 as [|f1 IH]; intros f2 st H1 H2; [lia|].
  destruct f2 as [|f2]; [lia|]. simpl.
  destruct (queue st) as [|[k r] q] eqn:Hq; simpl; [done|].
  destruct (req_requested r); [|done].
  destruct (N.ltb _ _); [|done].
  pose proof (clean_head_shrinks closed now k r q (req_group r) st Hq) as Hlt.
  apply IH; rewrite Hq in *; simpl in *; lia.
Qed.

Lemma handler_sweep_settled fuel closed now st :
  length (queue st) < fuel ->
  head_settled now (queue (handler_sweep fuel closed now st)).
Proof.
  revert st. induction fuel as [|fuel IH]; intros st Hf; [lia|]. simpl.
  destruct (queue st) as [|[k r] q] eqn:Hq; simpl.
  - unfold head_settled. by rewrite Hq.
  - destruct (req_requested r) as [t|] eqn:Ht.
    + destruct (N.ltb_spec TIME_OUT (elapsed now t)) as [Hlt|Hge].
      * apply IH.
        pose proof (clean_head_shrinks closed now k r q (req_group r) st Hq) as Hs.
        rewrite Hq in *; simpl in *; lia.
      * unfold head_settled. rewrite Hq. simpl. rewrite Ht. lia.
    + unfold head_settled. rewrite Hq. simpl. by rewrite Ht.
Qed.

End SweepFacts.

(** C5: after one tick of the handler loop the head of the queue (if
    any) is either not yet sent or sent but not past [TIME_OUT]; and the
    tick scans from the head: while the head is sent and expired it runs
    [clean_queue] with that head's peer id and group, then scans again. *)
Theorem handler_tick_scans_head (closed : nat -> bool) (now : Instant) (st : Tracker) :
  head_settled now (queue (handler_tick closed now st)) /\
  handler_tick closed now st =
    match Queue.peek (queue st) with
    | Some (_, request) =>
        match req_requested request with
        | Some requested_at =>
            if N.ltb TIME_OUT (elapsed now requested_at)
            then handler_tick closed now
                   (clean_queue closed now (Some (peer_id (req_peer request)))
                      (req_group request) st)
            else st
        | None => st
        end
    | None => st
    end.
Proof.
  split; [apply SweepFacts.handler_sweep_settled; lia|].
  unfold handler_tick at 1. rewrite SweepFacts.handler_sweep_S.
  destruct (queue st) as [|[k r] q] eqn:Hq; cbn [Queue.peek head]; [done|].
  destruct (req_requested r); [|done].
  destruct (N.ltb _ _); [|done].
  pose proof (SweepFacts.clean_head_shrinks closed now k r q (req_group r) st Hq) as Hs.
  rewrite Hq in Hs. cbn [length] in Hs |- *.
  unfold handler_tick. apply SweepFacts.handler_sweep_fuel; lia.
Qed.

(** ** Eviction *)
Module EvictFacts.
Import QueueFacts TrackerFacts.

Lemma existsb_filter {A} (f p : A -> bool) (l : list A) :
  existsb f (List.filter p l) = existsb (fun x => p x && f x) l.
Proof. induction l as [|x l IH]; simpl; [done|]. destruct (p x); simpl; by rewrite IH. Qed.

Lemma existsb_ext {A} (f g : A -> bool) (l : list A) :
  (forall x, f x = g x) -> existsb f l = existsb g l.
Proof. intros Hfg. induction l as [|x l IH]; simpl; [done|]. by rewrite Hfg, IH. Qed.

Lemma clean_pred_group closed now g k r :
  clean_pred closed now None (Some g) k r = cancel_group_evicts closed now g r.
Proof.
  unfold clean_pred, cancel_group_evicts.
  destruct (req_group r) as [g'|]; cbn -[bool_decide].
  - case_bool_decide as Hd.
    + injection Hd as ->. by rewrite Nat.eqb_refl.
    + destruct (Nat.eqb_spec g g') as [->|]; [congruence|done].
  - case_bool_decide; [discriminate|done].
Qed.

(** An entry whose predicate holds is extracted: its key leaves the
    queue (keys are distinct) and enters the cache. *)
Lemma clean_queue_extracts closed now p g st k r :
  NoDup (Queue.keys (queue st)) -> In (k, r) (queue st) ->
  clean_pred closed now p g k r = true ->
  ~ In k (Queue.keys (queue (clean_queue closed now p g st))) /\
  cache (clean_queue closed now p g st) !! k = Some now.
Proof.
  intros Hnd Hin Hp. split.
  - rewrite clean_queue_queue. intros Hk.
    apply in_map_iff in Hk as [[k' r'] [Hk' Hin']]. simpl in Hk'. subst k'.
    apply filter_In in Hin' as [Hin' Hf]. simpl in Hf.
    rewrite (keys_unique _ k r' r Hnd Hin' Hin), Hp in Hf. done.
  - rewrite clean_queue_cache.
    replace (existsb _ _) with true; [done|]. symmetry.
    apply existsb_exists. exists (k, r). split; [|apply Nat.eqb_refl].
    apply filter_In. by split.
Qed.

Lemma clean_queue_evicts_only closed now p g st :
  NoDup (Queue.keys (queue st)) -> evicts_only st (clean_queue closed now p g st).
Proof.
  intros Hnd. split; [apply clean_queue_keys_sub|].
  intros k Hnone Hsome. rewrite clean_queue_cache in Hsome.
  destruct (existsb _ _) eqn:He; [|by rewrite Hnone in Hsome].
  apply existsb_exists in He as [[k' r] [Hin Hk]]. simpl in Hk.
  apply Nat.eqb_eq in Hk. subst k'.
  apply filter_In in Hin as [Hin Hp]. simpl in Hp.
  split; [by eapply In_keys|]. by apply (clean_queue_extracts closed now p g st k r).
Qed.

Lemma evicts_only_refl st st' :
  queue st' = queue st -> (forall k, is_Some (cache st' !! k) -> is_Some (cache st !! k)) ->
  evicts_only st st'.
Proof.
  intros Hq Hc. split; [by rewrite Hq|].
  intros k Hn Hs. apply Hc in Hs. rewrite Hn in Hs. by destruct Hs.
Qed.

Lemma evicts_only_trans st st1 st2 :
  evicts_only st st1 -> evicts_only st1 st2 -> evicts_only st st2.
Proof.
  intros [Hsub1 Hnew1] [Hsub2 Hnew2]. split; [eauto|].
  intros k Hn Hs. destruct (cache st1 !! k) eqn:H1.
  - destruct (Hnew1 k Hn (mk_is_Some _ _ H1)) as [Hin Hnin].
    split; [done|]. intros Hk. by apply Hnin, Hsub2.
  - destruct (Hnew2 k H1 Hs) as [Hin Hnin]. split; [|done]. by apply Hsub1.
Qed.

End EvictFacts.

(** C3 (as stated, refuted): cancelling group 2 also evicts a Request of
    group 1 whose peer is disconnected. *)
Lemma mark_group_as_fail_evicts_other_group :
  let st := mkTracker [(1, mkRequest 1 (mkPeer 1) (Some 1) None);
                       (2, mkRequest 2 (mkPeer 2) (Some 2) None)] ∅ [] true [] [] in
  ~ (forall e, In e (queue st) -> req_group (snd e) <> Some 2 ->
       In e (queue (mark_group_as_fail (closed_peers [1]) 0%N 2 st))).
Proof.
  intros st H.
  specialize (H (1, mkRequest 1 (mkPeer 1) (Some 1) None) (or_introl eq_refl)).
  assert (Hg : Some 1 <> Some 2) by congruence.
  specialize (H Hg). vm_compute in H. exact H.
Qed.

(** C3 (amended): [mark_group_as_fail g] evicts exactly the Requests that
    are tagged with [g], or whose peer's connection is closed, or that
    were sent more than [TIME_OUT] ago, whatever their send state;
    the other Requests stay queued in their order, and every evicted
    identity is inserted in the dedupe cache at the current instant. *)
Theorem mark_group_as_fail_evicts (closed : nat -> bool) (now : Instant)
    (g : nat) (st : Tracker) :
  queue (mark_group_as_fail closed now g st)
  = List.filter (fun e => negb (cancel_group_evicts closed now g (snd e))) (queue st) /\
  forall k, cache (mark_group_as_fail closed now g st) !! k
    = if existsb (fun e => cancel_group_evicts closed now g (snd e) && Nat.eqb (fst e) k)
           (queue st)
      then Some now else cache st !! k.
Proof.
  split.
  - unfold mark_group_as_fail. rewrite TrackerFacts.clean_queue_queue.
    apply filter_ext. intros [k r]. simpl. by rewrite EvictFacts.clean_pred_group.
  - intros k. unfold mark_group_as_fail. rewrite TrackerFacts.clean_queue_cache.
    rewrite EvictFacts.existsb_filter.
    erewrite EvictFacts.existsb_ext; [reflexivity|]. intros [k' r]. simpl.
    by rewrite EvictFacts.clean_pred_group.
Qed.

(** ** Dispatch failures *)
Module DispatchFacts.
Import QueueFacts.

Lemma update_In h f (q : Queue.t) k r :
  In (k, r) q -> In (k, if Nat.eqb k h then f r else r) (Queue.update h f q).
Proof.
  intros Hin. unfold Queue.update. apply in_map_iff. exists (k, r).
  split; [|done]. simpl. by destruct (Nat.eqb k h).
Qed.

Lemma get_push_new h v (q : Queue.t) :
  ~ In h (Queue.keys q) -> Queue.get h (Queue.push h v q) = Some v.
Proof.
  unfold Queue.get, Queue.push, Queue.keys.
  induction q as [|[k r] q IH]; intros Hn; simpl; [by rewrite Nat.eqb_refl|].
  destruct (Nat.eqb_spec k h) as [->|Hne]; [simpl in Hn; tauto|].
  apply IH. simpl in Hn. tauto.
Qed.

End DispatchFacts.

(** C8: when the requester loop dispatches a queued identity whose peer
    is observed disconnected, or whose transmission fails or is cut by
    the peer's exit, it runs [clean_queue] at once with that peer's id
    and the request's group: every queued Request of that peer, or of
    that group, leaves the queue in this same step and its identity is
    put in the dedupe cache. *)
Theorem requester_failure_evicts_backlog (closed : nat -> bool) (now : Instant)
    (outcome : SendOutcome) (h : Hash) (st : Tracker) (r : Request)
    (Hnd : NoDup (Queue.keys (queue st)))
    (Hg : Queue.get h (queue st) = Some r)
    (Hfail : closed (peer_id (req_peer r)) = true \/ outcome <> Sent) :
  request_object_from_peer_internal closed now outcome h st
    = clean_queue closed now (Some (peer_id (req_peer r))) (req_group r)
        (set_queue (Queue.update h (set_requested now) (queue st)) st) /\
  forall k r', In (k, r') (queue st) ->
    peer_id (req_peer r') = peer_id (req_peer r) \/
    (req_group r' = req_group r /\ is_Some (req_group r)) ->
    ~ In k (Queue.keys (queue (request_object_from_peer_internal closed now outcome h st))) /\
    cache (request_object_from_peer_internal closed now outcome h st) !! k = Some now.
Proof.
  assert (Heq : request_object_from_peer_internal closed now outcome h st
    = clean_queue closed now (Some (peer_id (req_peer r))) (req_group r)
        (set_queue (Queue.update h (set_requested now) (queue st)) st)).
  { unfold request_object_from_peer_internal. rewrite Hg. cbv beta iota zeta.
    destruct (closed (peer_id (req_peer r))) eqn:Hc; [done|].
    destruct outcome; [|done|done].
    destruct Hfail as [H|H]; congruence. }
  rewrite Heq. split; [done|].
  intros k r' Hin Hcond.
  set (r1 := if Nat.eqb k h then set_requested now r' else r').
  assert (Hin1 : In (k, r1) (Queue.update h (set_requested now) (queue st)))
    by (apply DispatchFacts.update_In, Hin).
  assert (Hpg : req_peer r1 = req_peer r' /\ req_group r1 = req_group r')
    by (subst r1; by destruct (Nat.eqb k h)).
  destruct Hpg as [Hpeer Hgroup].
  apply (EvictFacts.clean_queue_extracts _ _ _ _ _ k r1).
  - simpl. by rewrite QueueFacts.keys_update.
  - exact Hin1.
  - unfold clean_pred. rewrite Hpeer, Hgroup.
    destruct Hcond as [Hp|[Hgr [g Hgs]]].
    + rewrite Hp, Nat.eqb_refl. by rewrite ?orb_true_l, ?orb_true_r.
    + rewrite Hgr, Hgs, Nat.eqb_refl. done.
Qed.

Lemma requester_failure_evicts_backlog_witness :
  let st := mkTracker [(1, Request_new 1 (mkPeer 1) (Some 5));
                       (2, Request_new 2 (mkPeer 1) None);
                       (3, Request_new 3 (mkPeer 2) (Some 5));
                       (4, Request_new 4 (mkPeer 3) None)] ∅ [] true [] [] in
  NoDup (Queue.keys (queue st)) /\
  Queue.get 1 (queue st) = Some (Request_new 1 (mkPeer 1) (Some 5)) /\
  (no_closed (peer_id (req_peer (Request_new 1 (mkPeer 1) (Some 5)))) = true \/ SendFailed <> Sent) /\
  (request_object_from_peer_internal no_closed 0%N SendFailed 1 st
    = clean_queue no_closed 0%N (Some 1) (Some 5)
        (set_queue (Queue.update 1 (set_requested 0%N) (queue st)) st) /\
  forall k r', In (k, r') (queue st) ->
    peer_id (req_peer r') = 1 \/ (req_group r' = Some 5 /\ is_Some (Some 5)) ->
    ~ In k (Queue.keys (queue (request_object_from_peer_internal no_closed 0%N SendFailed 1 st))) /\
    cache (request_object_from_peer_internal no_closed 0%N SendFailed 1 st) !! k = Some 0%N).
Proof.
  intros st.
  assert (Hnd : NoDup (Queue.keys (queue st))) by (unfold st; simpl; apply (bool_decide_unpack _); vm_compute; reflexivity).
  assert (Hg : Queue.get 1 (queue st) = Some (Request_new 1 (mkPeer 1) (Some 5))) by reflexivity.
  assert (Hf : no_closed (peer_id (req_peer (Request_new 1 (mkPeer 1) (Some 5)))) = true
               \/ SendFailed <> Sent) by (right; discriminate).
  split; [exact Hnd|]. split; [exact Hg|]. split; [exact Hf|].
  exact (requester_failure_evicts_backlog no_closed 0%N SendFailed 1 st _ Hnd Hg Hf).
Defined.

(** C4 (code defect): once the requester loop has exited, the dispatch
    channel is closed; a request for a new identity then returns
    [Err ChannelClosed] but the Request it pushed stays in the queue. *)
Theorem request_object_channel_closed_keeps_request (peer : Peer) (h : Hash)
    (group_id : option nat) (st : Tracker)
    (Hc : channel_open st = false) (Hn : ~ In h (Queue.keys (queue st))) :
  request_object_from_peer_with_or_get_notified peer h group_id st
    = (set_queue (Queue.push h (Request_new h peer group_id) (queue st)) st, Err ChannelClosed) /\
  Queue.get h (queue (fst (request_object_from_peer_with_or_get_notified peer h group_id st)))
    = Some (Request_new h peer group_id).
Proof.
  assert (Heq : request_object_from_peer_with_or_get_notified peer h group_id st
    = (set_queue (Queue.push h (Request_new h peer group_id) (queue st)) st, Err ChannelClosed)).
  { unfold request_object_from_peer_with_or_get_notified.
    destruct (Queue.get h (queue st)) eqn:Hg.
    - exfalso. apply Hn, QueueFacts.In_keys with (r := r), QueueFacts.get_Some_In, Hg.
    - simpl. by rewrite Hc. }
  rewrite Heq. split; [done|]. simpl. by apply DispatchFacts.get_push_new.
Qed.

Lemma request_object_channel_closed_keeps_request_witness :
  let st := close_channel ObjectTracker_new in
  reachable st /\ channel_open st = false /\ ~ In 170 (Queue.keys (queue st)) /\
  (request_object_from_peer_with_or_get_notified (mkPeer 1) 170 None st
    = (set_queue (Queue.push 170 (Request_new 170 (mkPeer 1) None) (queue st)) st, Err ChannelClosed) /\
  Queue.get 170 (queue (fst (request_object_from_peer_with_or_get_notified (mkPeer 1) 170 None st)))
    = Some (Request_new 170 (mkPeer 1) None)).
Proof.
  intros st.
  assert (Hr : reachable st) by (eapply reachable_step; [apply reachable_new | apply step_requester_exit]).
  assert (Hc : channel_open st = false) by reflexivity.
  assert (Hn : ~ In 170 (Queue.keys (queue st))) by (simpl; tauto).
  split; [exact Hr|]. split; [exact Hc|]. split; [exact Hn|].
  exact (request_object_channel_closed_keeps_request (mkPeer 1) 170 None st Hc Hn).
Defined.

(** ** Where dedupe-cache entries come from *)
Module CacheFacts.
Import QueueFacts TrackerFacts EvictFacts.

Lemma no_new_entry st st' k :
  (forall k, is_Some (cache st' !! k) -> is_Some (cache st !! k)) ->
  cache st !! k = None -> is_Some (cache st' !! k) -> False.
Proof. intros Hc Hn Hs. apply Hc in Hs. rewrite Hn in Hs. by destruct Hs. Qed.

Lemma handler_sweep_evicts_only fuel closed now st :
  NoDup (Queue.keys (queue st)) -> evicts_only st (handler_sweep fuel closed now st).
Proof.
  revert st. induction fuel as [|fuel IH]; intros st Hnd;
    [by apply evicts_only_refl|].
  rewrite SweepFacts.handler_sweep_S.
  destruct (Queue.peek (queue st)) as [[k r]|]; [|by apply evicts_only_refl].
  destruct (req_requested r); [|by apply evicts_only_refl].
  destruct (N.ltb _ _); [|by apply evicts_only_refl].
  eapply evicts_only_trans; [by apply clean_queue_evicts_only|].
  by apply IH, clean_queue_NoDup.
Qed.

Lemma requester_new_entry closed now outcome h st k :
  NoDup (Queue.keys (queue st)) ->
  cache st !! k = None ->
  is_Some (cache (request_object_from_peer_internal closed now outcome h st) !! k) ->
  In k (Queue.keys (queue st)) /\
  ~ In k (Queue.keys (queue (request_object_from_peer_internal closed now outcome h st))).
Proof.
  intros Hnd Hn Hs. unfold request_object_from_peer_internal in *.
  destruct (Queue.get h (queue st)) as [r|];
    [|exfalso; by eapply (no_new_entry st st)].
  cbv beta iota zeta in *.
  set (st1 := set_queue (Queue.update h (set_requested now) (queue st)) st) in *.
  assert (Hnd1 : NoDup (Queue.keys (queue st1))) by (simpl; by rewrite keys_update).
  assert (Hk : forall k, In k (Queue.keys (queue st1)) <-> In k (Queue.keys (queue st)))
    by (intros; simpl; by rewrite keys_update).
  destruct (closed (peer_id (req_peer r))).
  - destruct (clean_queue_evicts_only closed now (Some (peer_id (req_peer r))) (req_group r) st1 Hnd1) as [_ Hnew].
    destruct (Hnew k Hn Hs) as [Hin Hnin]. split; [by apply Hk|done].
  - destruct outcome.
    + exfalso. by eapply (no_new_entry st).
    + destruct (clean_queue_evicts_only closed now (Some (peer_id (req_peer r))) (req_group r) st1 Hnd1) as [_ Hnew].
      destruct (Hnew k Hn Hs) as [Hin Hnin]. split; [by apply Hk|done].
    + destruct (clean_queue_evicts_only closed now (Some (peer_id (req_peer r))) (req_group r) st1 Hnd1) as [_ Hnew].
      destruct (Hnew k Hn Hs) as [Hin Hnin]. split; [by apply Hk|done].
Qed.

Lemma clean_cache_ticks_queue ts st : queue (clean_cache_ticks ts st) = queue st.
Proof. revert st. induction ts as [|t ts IH]; intros st; simpl; [done|]. by rewrite IH. Qed.

Lemma clean_cache_tick_lookup t st h :
  cache (clean_cache_tick t st) !! h
  = match cache st !! h with
    | Some te => if N.ltb (elapsed t te) TIME_OUT then Some te else None
    | None => None
    end.
Proof.
  simpl. unfold ExpirableCache.clean. rewrite map_lookup_filter.
  destruct (cache st !! h) as [te|]; simpl; [|done].
  destruct (N.ltb_spec (elapsed t te) TIME_OUT); simpl.
  - by rewrite option_guard_True.
  - rewrite option_guard_False; [done|]. simpl. lia.
Qed.

Lemma clean_cache_ticks_lookup ts st h :
  cache (clean_cache_ticks ts st) !! h
  = match cache st !! h with
    | Some te => if existsb (fun t => N.leb TIME_OUT (elapsed t te)) ts then None else Some te
    | None => None
    end.
Proof.
  revert st. induction ts as [|t ts IH]; intros st; simpl.
  - by destruct (cache st !! h).
  - rewrite IH, clean_cache_tick_lookup.
    destruct (cache st !! h) as [te|]; [|done].
    destruct (N.ltb_spec (elapsed t te) TIME_OUT);
      destruct (N.leb_spec TIME_OUT (elapsed t te)); simpl; try lia; done.
Qed.

End CacheFacts.

(** C6 (code bug): cancelling a group puts into the dedupe cache the
    identity of every Request of that group, also of one that was never
    sent: in any reachable tracker, a queued Request tagged with group
    [g] and without a send timestamp leaves the queue on
    [mark_group_as_fail g] and its identity enters the cache at the
    current instant, although the cache is meant only for Requests that
    were cancelled after being sent. *)
Theorem mark_group_as_fail_caches_unsent_request (closed : nat -> bool) (now : Instant)
    (g : nat) (st : Tracker) (h : Hash) (r : Request)
    (Hr : reachable st) (Hin : In (h, r) (queue st))
    (Hgroup : req_group r = Some g) (Hunsent : req_requested r = None) :
  ~ In h (Queue.keys (queue (mark_group_as_fail closed now g st))) /\
  cache (mark_group_as_fail closed now g st) !! h = Some now.
Proof.
  unfold mark_group_as_fail.
  apply (EvictFacts.clean_queue_extracts closed now None (Some g) st h r);
    [by apply TrackerFacts.reachable_NoDup|done|].
  unfold clean_pred. rewrite Hgroup, Nat.eqb_refl. done.
Qed.

Lemma mark_group_as_fail_caches_unsent_request_witness :
  let st := fst (request_object_from_peer_with_or_get_notified (mkPeer 1) 187 (Some 7)
                   ObjectTracker_new) in
  reachable st /\ cache st !! 187 = None /\
  In (187, Request_new 187 (mkPeer 1) (Some 7)) (queue st) /\
  req_group (Request_new 187 (mkPeer 1) (Some 7)) = Some 7 /\
  req_requested (Request_new 187 (mkPeer 1) (Some 7)) = None /\
  (~ In 187 (Queue.keys (queue (mark_group_as_fail no_closed 0%N 7 st))) /\
   cache (mark_group_as_fail no_closed 0%N 7 st) !! 187 = Some 0%N).
Proof.
  intros st.
  assert (Hr : reachable st)
    by (eapply reachable_step; [apply reachable_new | apply step_request]).
  assert (Hin : In (187, Request_new 187 (mkPeer 1) (Some 7)) (queue st))
    by (simpl; left; reflexivity).
  assert (Hg : req_group (Request_new 187 (mkPeer 1) (Some 7)) = Some 7) by reflexivity.
  assert (Hu : req_requested (Request_new 187 (mkPeer 1) (Some 7)) = None) by reflexivity.
  split; [exact Hr|]. split; [reflexivity|]. split; [exact Hin|].
  split; [exact Hg|]. split; [exact Hu|].
  exact (mark_group_as_fail_caches_unsent_request no_closed 0%N 7 st 187 _ Hr Hin Hg Hu).
Defined.

(** ** Late responses and the retention window *)

(** C7 (as stated, refuted): a Request sent at 0 is evicted by the
    timeout sweep at 20000 ms and its identity enters the dedupe cache;
    the cache sweeps run at 25010 and 30010 ms.  A response arriving at
    35005 ms, past the 15000 ms window, is still absorbed (true), since
    no cache sweep has run since the window ended. *)
Lemma late_response_after_window_accepted :
  let st0 := mkTracker [(204, mkRequest 204 (mkPeer 1) None (Some 0%N))] ∅ [] true [] [] in
  let st1 := handler_tick no_closed 20000%N st0 in
  queue st1 = [] /\
  cache st1 !! 204 = Some 20000%N /\
  (TIME_OUT < elapsed 35005 20000)%N /\
  snd (handle_object_response 204 9 (clean_cache_ticks [25010%N; 30010%N] st1)) = Ok true.
Proof. vm_compute. split; [reflexivity|]. split; [reflexivity|]. split; reflexivity. Qed.

(** C7 (amended): after an identity absent from the queue entered the
    dedupe cache at instant [te], the first response for it, after cache
    sweeps at the instants [ts], returns true unless one of those sweeps
    ran at least [TIME_OUT] after [te], and false if one did: responses
    within the window are absorbed, and after the window a response is
    refused only once a cache sweep (every 5 s) has run. *)
Theorem dedupe_window (h : Hash) (te : Instant) (ts : list Instant) (p : Payload)
    (st : Tracker)
    (Hq : ~ In h (Queue.keys (queue st))) (Hc : cache st !! h = Some te) :
  snd (handle_object_response h p (clean_cache_ticks ts st))
  = Ok (negb (existsb (fun t => N.leb TIME_OUT (elapsed t te)) ts)).
Proof.
  rewrite ResponseFacts.handle_miss.
  - cbn [snd]. rewrite CacheFacts.clean_cache_ticks_lookup, Hc.
    destruct (existsb _ ts); cbn [negb].
    + by rewrite bool_decide_eq_false_2 by (intros [? ?]; done).
    + by rewrite bool_decide_eq_true_2 by (eexists; done).
  - apply QueueFacts.get_None. by rewrite CacheFacts.clean_cache_ticks_queue.
Qed.

Lemma dedupe_window_witness :
  let st0 := mkTracker [(204, mkRequest 204 (mkPeer 1) None (Some 0%N))] ∅ [] true [] [] in
  let st := handler_tick no_closed 20000%N st0 in
  ~ In 204 (Queue.keys (queue st)) /\ cache st !! 204 = Some 20000%N /\
  snd (handle_object_response 204 9 (clean_cache_ticks [25000%N; 30000%N; 35000%N] st))
  = Ok (negb (existsb (fun t => N.leb TIME_OUT (elapsed t 20000%N)) [25000%N; 30000%N; 35000%N])).
Proof.
  intros st0 st.
  assert (Hq : ~ In 204 (Queue.keys (queue st))) by (vm_compute; tauto).
  assert (Hc : cache st !! 204 = Some 20000%N) by (vm_compute; reflexivity).
  split; [exact Hq|]. split; [exact Hc|].
  exact (dedupe_window 204 20000%N [25000%N; 30000%N; 35000%N] 9 st Hq Hc).
Defined.

(** * Further properties of the tracker *)
Module ExtraFacts.
Import QueueFacts TrackerFacts.

Lemma mod_two_range a :
  (a < 2 * U64_MODULUS)%N ->
  (a mod U64_MODULUS = if N.ltb a U64_MODULUS then a else a - U64_MODULUS)%N.
Proof.
  intros H. destruct (N.ltb_spec a U64_MODULUS).
  - by apply N.mod_small.
  - replace a with ((a - U64_MODULUS) + 1 * U64_MODULUS)%N at 1 by lia.
    rewrite N.Div0.mod_add. apply N.mod_small. unfold U64_MODULUS in *. lia.
Qed.

Lemma add_mod_inj c x y :
  (c < U64_MODULUS)%N -> (x < U64_MODULUS)%N -> (y < U64_MODULUS)%N ->
  ((c + x) mod U64_MODULUS = (c + y) mod U64_MODULUS)%N -> x = y.
Proof.
  intros Hc Hx Hy. rewrite !mod_two_range by (unfold U64_MODULUS in *; lia).
  destruct (N.ltb_spec (c + x) U64_MODULUS), (N.ltb_spec (c + y) U64_MODULUS);
    unfold U64_MODULUS in *; lia.
Qed.

Lemma next_group_ids_map n c :
  (c < U64_MODULUS)%N ->
  next_group_ids n c = map (fun i => ((c + N.of_nat i) mod U64_MODULUS)%N) (seq 0 n).
Proof.
  revert c. induction n as [|n IH]; intros c Hc; [done|].
  cbn [next_group_ids next_group_id seq map].
  rewrite N.add_0_r, (N.mod_small c) by done. f_equal.
  rewrite IH by (apply N.mod_lt; unfold U64_MODULUS; lia).
  rewrite <- seq_shift, map_map. apply map_ext. intros i.
  rewrite N.Div0.add_mod_idemp_l. f_equal. lia.
Qed.

Lemma get_update h k f (q : Queue.t) :
  Queue.get h (Queue.update k f q)
  = (fun r => if Nat.eqb h k then f r else r) <$> Queue.get h q.
Proof.
  unfold Queue.get, Queue.update. induction q as [|[k' r'] q IH]; [done|].
  cbn [List.map List.find fst snd].
  destruct (Nat.eqb k' k) eqn:Ek; cbn [List.find fst snd];
    destruct (Nat.eqb_spec k' h) as [->|Hne]; simpl; try rewrite Ek; try done.
Qed.

Lemma queued_peer_update h f (q : Queue.t) k :
  (forall r, req_peer (f r) = req_peer r) ->
  queued_peer (Queue.update k f q) h = queued_peer q h.
Proof.
  intros Hf. unfold queued_peer. rewrite get_update.
  destruct (Queue.get h q); simpl; [|done]. destruct (Nat.eqb h k); [by rewrite Hf|done].
Qed.

Lemma dispatch_sent closed now h st r :
  Queue.get h (queue st) = Some r -> closed (peer_id (req_peer r)) = false ->
  request_object_from_peer_internal closed now Sent h st
  = add_wire (peer_id (req_peer r)) h
      (set_queue (Queue.update h (set_requested now) (queue st)) st).
Proof.
  intros Hg Hc. unfold request_object_from_peer_internal. rewrite Hg.
  cbv beta iota zeta. by rewrite Hc.
Qed.

(** On a dispatch failure the requester runs [clean_queue] for the peer and
    the group of the request. *)
Lemma dispatch_failed closed now outcome h st r :
  Queue.get h (queue st) = Some r ->
  closed (peer_id (req_peer r)) = true \/ outcome <> Sent ->
  request_object_from_peer_internal closed now outcome h st
  = clean_queue closed now (Some (peer_id (req_peer r))) (req_group r)
      (set_queue (Queue.update h (set_requested now) (queue st)) st).
Proof.
  intros Hg Hfail. unfold request_object_from_peer_internal. rewrite Hg.
  cbv beta iota zeta.
  destruct (closed (peer_id (req_peer r))) eqn:Hc; [done|].
  destruct outcome; [|done|done]. destruct Hfail as [H|H]; congruence.
Qed.

Lemma filter_none {A} (f : A -> bool) l :
  (forall x, In x l -> f x = false) -> List.filter f l = [].
Proof.
  induction l as [|x l IH]; intros H; simpl; [done|].
  rewrite (H x (or_introl eq_refl)). apply IH. intros y Hy. apply H. by right.
Qed.

Lemma filter_all {A} (f : A -> bool) l :
  (forall x, In x l -> f x = true) -> List.filter f l = l.
Proof.
  induction l as [|x l IH]; intros H; simpl; [done|].
  rewrite (H x (or_introl eq_refl)). f_equal. apply IH. intros y Hy. apply H. by right.
Qed.

Lemma filter_key_absent h (q : Queue.t) :
  ~ In h (Queue.keys q) -> List.filter (fun e => negb (Nat.eqb (fst e) h)) q = q.
Proof.
  intros Hn. apply filter_all. intros [k r] Hin. simpl.
  destruct (Nat.eqb_spec k h) as [->|]; [|done].
  exfalso. apply Hn. by eapply In_keys.
Qed.

End ExtraFacts.

(** X1: [n] successive calls of [next_group_id] from a counter below
    [2^64] return pairwise distinct ids below [2^64], as long as there
    are at most [2^64] calls (the counter wraps around after that). *)
Theorem next_group_ids_distinct (n : nat) (group_id : N)
    (Hc : (group_id < U64_MODULUS)%N) (Hn : (N.of_nat n <= U64_MODULUS)%N) :
  NoDup (next_group_ids n group_id) /\
  forall id, In id (next_group_ids n group_id) -> (id < U64_MODULUS)%N.
Proof.
  rewrite ExtraFacts.next_group_ids_map by done. split.
  - apply NoDup_ListNoDup, NoDup_map_NoDup_ForallPairs; [|apply seq_NoDup].
    intros x y Hx Hy Heq. apply in_seq in Hx, Hy.
    apply (ExtraFacts.add_mod_inj group_id) in Heq; [lia|done|lia|lia].
  - intros id Hin. apply in_map_iff in Hin as [i [<- _]].
    apply N.mod_lt. unfold U64_MODULUS. lia.
Qed.

Lemma next_group_ids_distinct_witness :
  (18446744073709551615 < U64_MODULUS)%N /\ (N.of_nat 3 <= U64_MODULUS)%N /\
  next_group_ids 3 18446744073709551615%N = [18446744073709551615%N; 0%N; 1%N] /\
  (NoDup (next_group_ids 3 18446744073709551615%N) /\
   forall id, In id (next_group_ids 3 18446744073709551615%N) -> (id < U64_MODULUS)%N).
Proof.
  assert (Hc : (18446744073709551615 < U64_MODULUS)%N) by (unfold U64_MODULUS; lia).
  assert (Hn : (N.of_nat 3 <= U64_MODULUS)%N) by (unfold U64_MODULUS; lia).
  split; [exact Hc|]. split; [exact Hn|]. split; [vm_compute; reflexivity|].
  exact (next_group_ids_distinct 3 18446744073709551615%N Hc Hn).
Defined.

(** X2: when every send succeeds and no peer is closed, [requester_loop]
    transmits the identities of the dispatch channel in channel order,
    each to the peer of its queued Request, and leaves the queue keys
    untouched. *)
Theorem requester_loop_fifo (closed : nat -> bool)
    (events : list (Instant * SendOutcome)) (st : Tracker)
    (Hsent : Forall (fun e => snd e = Sent) events)
    (Hlen : length events = length (channel st))
    (Hqueued : forall h, In h (channel st) -> In h (Queue.keys (queue st)))
    (Hopen : forall h, In h (channel st) -> closed (queued_peer (queue st) h) = false) :
  channel (requester_loop closed events st) = [] /\
  wire (requester_loop closed events st)
  = wire st ++ map (fun h => (queued_peer (queue st) h, h)) (channel st) /\
  Queue.keys (queue (requester_loop closed events st)) = Queue.keys (queue st).
Proof.
  revert st Hlen Hqueued Hopen.
  induction events as [|[now outcome] events IH]; intros st Hlen Hqueued Hopen.
  - simpl in *. destruct (channel st) eqn:Hc; [|done]. simpl.
    by rewrite app_nil_r.
  - inversion Hsent as [|? ? Ho Hsent']; subst. simpl in Ho; subst outcome.
    simpl. destruct (channel st) as [|h rest] eqn:Hc; [done|].
    assert (Hin : In h (Queue.keys (queue st))) by (apply Hqueued; by left).
    destruct (Queue.get h (queue st)) as [r|] eqn:Hg;
      [|by apply QueueFacts.get_None in Hg].
    assert (Hcl : closed (peer_id (req_peer r)) = false).
    { pose proof (Hopen h (or_introl eq_refl)) as H. unfold queued_peer in H.
      by rewrite Hg in H. }
    rewrite (ExtraFacts.dispatch_sent closed now h (set_channel rest st) r Hg Hcl).
    set (st1 := add_wire _ _ _).
    assert (Hq1 : queue st1 = Queue.update h (set_requested now) (queue st)) by done.
    assert (Hp1 : forall h', queued_peer (queue st1) h' = queued_peer (queue st) h').
    { intros h'. rewrite Hq1. by apply ExtraFacts.queued_peer_update. }
    destruct (IH Hsent' st1) as (Hch & Hw & Hk).
    + simpl in Hlen. simpl. lia.
    + intros h' Hh'. rewrite Hq1, QueueFacts.keys_update. apply Hqueued. by right.
    + intros h' Hh'. rewrite Hp1. apply Hopen. by right.
    + split; [done|]. split.
      * rewrite Hw. simpl. rewrite <- app_assoc. f_equal. simpl.
        unfold queued_peer at 2. rewrite Hg. f_equal.
        apply map_ext. intros h'. by rewrite Hp1.
      * rewrite Hk, Hq1. apply QueueFacts.keys_update.
Qed.

Lemma requester_loop_fifo_witness :
  let st := fst (request_object_from_peer_with_or_get_notified (mkPeer 7) 2 None
                   (fst (request_object_from_peer_with_or_get_notified (mkPeer 5) 1 None
                           ObjectTracker_new))) in
  Forall (fun e => snd e = Sent) [(10%N, Sent); (20%N, Sent)] /\
  length [(10%N, Sent); (20%N, Sent)] = length (channel st) /\
  wire (requester_loop no_closed [(10%N, Sent); (20%N, Sent)] st) = [(5, 1); (7, 2)] /\
  (channel (requester_loop no_closed [(10%N, Sent); (20%N, Sent)] st) = [] /\
   wire (requester_loop no_closed [(10%N, Sent); (20%N, Sent)] st)
   = wire st ++ map (fun h => (queued_peer (queue st) h, h)) (channel st) /\
   Queue.keys (queue (requester_loop no_closed [(10%N, Sent); (20%N, Sent)] st))
   = Queue.keys (queue st)).
Proof.
  intros st.
  assert (Hs : Forall (fun e => snd e = Sent) [(10%N, Sent); (20%N, Sent)])
    by (repeat constructor).
  assert (Hl : length [(10%N, Sent); (20%N, Sent)] = length (channel st))
    by (vm_compute; reflexivity).
  split; [exact Hs|]. split; [exact Hl|]. split; [vm_compute; reflexivity|].
  apply (requester_loop_fifo no_closed _ st Hs Hl).
  - intros h Hh. unfold st in *. vm_compute in Hh. vm_compute.
    destruct Hh as [<-|[<-|[]]]; tauto.
  - intros h Hh. unfold st in *. vm_compute in Hh.
    destruct Hh as [<-|[<-|[]]]; vm_compute; reflexivity.
Defined.

(** X3: one iteration of the requester transmits an object request only
    when the identity is still queued, its peer's connection is open and
    the send succeeds; it then goes to that peer and the Request is
    stamped with the current instant.  Otherwise nothing is transmitted. *)
Theorem requester_transmits_only_queued (closed : nat -> bool) (now : Instant)
    (outcome : SendOutcome) (h : Hash) (st : Tracker) :
  wire (request_object_from_peer_internal closed now outcome h st) = wire st \/
  exists r, Queue.get h (queue st) = Some r /\
    closed (peer_id (req_peer r)) = false /\ outcome = Sent /\
    wire (request_object_from_peer_internal closed now outcome h st)
    = wire st ++ [(peer_id (req_peer r), h)] /\
    Queue.get h (queue (request_object_from_peer_internal closed now outcome h st))
    = Some (set_requested now r).
Proof.
  destruct (Queue.get h (queue st)) as [r|] eqn:Hg.
  - destruct (closed (peer_id (req_peer r))) eqn:Hc.
    + left. rewrite (ExtraFacts.dispatch_failed closed now outcome h st r Hg (or_introl Hc)).
      reflexivity.
    + destruct outcome.
      * right. exists r. rewrite (ExtraFacts.dispatch_sent closed now h st r Hg Hc).
        do 4 (split; [done|]). simpl. rewrite ExtraFacts.get_update, Hg. simpl.
        by rewrite Nat.eqb_refl.
      * left. rewrite (ExtraFacts.dispatch_failed closed now SendFailed h st r Hg).
        { reflexivity. } right. done.
      * left. rewrite (ExtraFacts.dispatch_failed closed now PeerExited h st r Hg).
        { reflexivity. } right. done.
  - left. unfold request_object_from_peer_internal. by rewrite Hg.
Qed.

(** X4: requesting an identity that is not queued, on an open dispatch
    channel with room (fewer than [REQUESTER_CHANNEL_BUFFER] identities
    pending, so the send completes at once), and then receiving its
    response hands back a listener, delivers the payload to it, and
    returns the queue and the cache to their previous content; the
    identity was put on the dispatch channel once. *)
Theorem request_response_round_trip (peer : Peer) (h : Hash) (g : option nat)
    (p : Payload) (st : Tracker)
    (Hnew : ~ In h (Queue.keys (queue st))) (Hopen : channel_open st = true)
    (Hroom : length (channel st) < REQUESTER_CHANNEL_BUFFER) :
  let '(st1, res1) := request_object_from_peer_with_or_get_notified peer h g st in
  let '(st2, res2) := handle_object_response h p st1 in
  res1 = Ok (Listener h) /\ res2 = Ok true /\
  queue st2 = queue st /\ cache st2 = cache st /\
  channel st2 = channel st ++ [h] /\ notified st2 = notified st ++ [(h, p)] /\
  wire st2 = wire st.
Proof.
  unfold request_object_from_peer_with_or_get_notified.
  assert (Hg : Queue.get h (queue st) = None) by (by apply QueueFacts.get_None).
  rewrite Hg. cbn [channel_open set_queue]. rewrite Hopen.
  set (st1 := set_channel _ _).
  assert (Hg1 : Queue.get h (queue st1) = Some (Request_new h peer g)).
  { apply DispatchFacts.get_push_new, Hnew. }
  rewrite (ResponseFacts.handle_hit h p st1 _ Hg1).
  split; [done|]. split; [done|]. split; [|done].
  simpl. unfold Queue.push. rewrite List.filter_app.
  rewrite ExtraFacts.filter_key_absent by done. simpl.
  rewrite Nat.eqb_refl. apply app_nil_r.
Qed.

Lemma request_response_round_trip_witness :
  ~ In 3 (Queue.keys (queue ObjectTracker_new)) /\ channel_open ObjectTracker_new = true /\
  length (channel ObjectTracker_new) < REQUESTER_CHANNEL_BUFFER /\
  (let '(st1, res1) :=
     request_object_from_peer_with_or_get_notified (mkPeer 1) 3 None ObjectTracker_new in
   let '(st2, res2) := handle_object_response 3 42 st1 in
   res1 = Ok (Listener 3) /\ res2 = Ok true /\
   queue st2 = queue ObjectTracker_new /\ cache st2 = cache ObjectTracker_new /\
   channel st2 = channel ObjectTracker_new ++ [3] /\
   notified st2 = notified ObjectTracker_new ++ [(3, 42)] /\
   wire st2 = wire ObjectTracker_new).
Proof.
  assert (Hn : ~ In 3 (Queue.keys (queue ObjectTracker_new))) by (simpl; tauto).
  assert (Ho : channel_open ObjectTracker_new = true) by reflexivity.
  assert (Hb : length (channel ObjectTracker_new) < REQUESTER_CHANNEL_BUFFER)
    by (unfold REQUESTER_CHANNEL_BUFFER; simpl; lia).
  split; [exact Hn|]. split; [exact Ho|]. split; [exact Hb|].
  exact (request_response_round_trip (mkPeer 1) 3 None 42 ObjectTracker_new Hn Ho Hb).
Defined.

(** X5: a response for an identity that is not queued is answered from
    the dedupe cache and consumes its entry: the answer says whether the
    cache held the identity, and a second response for the same identity
    is answered with false. *)
Theorem unqueued_response_absorbed_once (h : Hash) (p1 p2 : Payload) (st : Tracker)
    (Hnq : ~ In h (Queue.keys (queue st))) :
  snd (handle_object_response h p1 st) = Ok (bool_decide (is_Some (cache st !! h))) /\
  snd (handle_object_response h p2 (fst (handle_object_response h p1 st))) = Ok false /\
  queue (fst (handle_object_response h p1 st)) = queue st.
Proof.
  assert (Hg : Queue.get h (queue st) = None) by (by apply QueueFacts.get_None).
  rewrite (ResponseFacts.handle_miss h p1 st Hg). cbn [fst snd].
  split; [done|]. split; [|done].
  rewrite ResponseFacts.handle_miss by exact Hg. cbn [snd].
  simpl. rewrite lookup_delete_eq. reflexivity.
Qed.

Lemma unqueued_response_absorbed_once_witness :
  let st := clean_queue no_closed 0%N None (Some 1)
              (fst (request_object_from_peer_with_or_get_notified (mkPeer 5) 4 (Some 1)
                      ObjectTracker_new)) in
  ~ In 4 (Queue.keys (queue st)) /\
  snd (handle_object_response 4 9 st) = Ok true /\
  (snd (handle_object_response 4 9 st) = Ok (bool_decide (is_Some (cache st !! 4))) /\
   snd (handle_object_response 4 9 (fst (handle_object_response 4 9 st))) = Ok false /\
   queue (fst (handle_object_response 4 9 st)) = queue st).
Proof.
  intros st.
  assert (Hn : ~ In 4 (Queue.keys (queue st))) by (vm_compute; tauto).
  split; [exact Hn|]. split; [vm_compute; reflexivity|].
  exact (unqueued_response_absorbed_once 4 9 9 st Hn).
Defined.

Module StableFacts.
Import TrackerFacts.

(** [clean_queue] changes nothing once no queued Request satisfies its
    predicate. *)
Lemma clean_queue_stable closed now p g st :
  (forall e, In e (queue st) -> clean_pred closed now p g (fst e) (snd e) = false) ->
  clean_queue closed now p g st = st.
Proof.
  intros H. unfold clean_queue, Queue.extract_if.
  rewrite (ExtraFacts.filter_none _ _ H).
  rewrite (ExtraFacts.filter_all (fun e => negb (clean_pred closed now p g (fst e) (snd e)))).
  - by destruct st.
  - intros e He. by rewrite H.
Qed.

(** The sweep changes nothing when the head of the queue is settled. *)
Lemma handler_sweep_settled_id fuel closed now st :
  head_settled now (queue st) -> handler_sweep fuel closed now st = st.
Proof.
  intros H. destruct fuel as [|fuel]; [done|]. rewrite SweepFacts.handler_sweep_S.
  unfold head_settled in H. destruct (Queue.peek (queue st)) as [[k r]|]; [|done].
  destruct (req_requested r) as [t|]; [|done].
  destruct (N.ltb_spec TIME_OUT (elapsed now t)); [lia|done].
Qed.

End StableFacts.

(** X6: [clean_queue] is idempotent: a second clean with the same peer,
    group and instant finds nothing more to evict.  In particular
    marking the same group as failed twice at once is the same as once. *)
Theorem clean_queue_idempotent (closed : nat -> bool) (now : Instant)
    (p g : option nat) (group_id : nat) (st : Tracker) :
  clean_queue closed now p g (clean_queue closed now p g st) = clean_queue closed now p g st /\
  mark_group_as_fail closed now group_id (mark_group_as_fail closed now group_id st)
  = mark_group_as_fail closed now group_id st.
Proof.
  assert (H : forall p g, clean_queue closed now p g (clean_queue closed now p g st)
                          = clean_queue closed now p g st).
  { intros p' g'. apply StableFacts.clean_queue_stable.
    intros e He. rewrite TrackerFacts.clean_queue_queue in He.
    apply filter_In in He as [_ Hf]. by destruct (clean_pred _ _ _ _ _ _). }
  split; [apply H|]. unfold mark_group_as_fail. apply H.
Qed.

(** X7: the timeout sweep of [handler_loop] is idempotent: a second tick at
    the same instant finds the head of the queue settled and changes
    nothing. *)
Theorem handler_tick_idempotent (closed : nat -> bool) (now : Instant) (st : Tracker) :
  handler_tick closed now (handler_tick closed now st) = handler_tick closed now st.
Proof.
  unfold handler_tick at 1. apply StableFacts.handler_sweep_settled_id.
  apply SweepFacts.handler_sweep_settled. lia.
Qed.

(** X8: two sweeps of [task_clean_cache] at instants [t1 <= t2] leave the
    same cache as the later sweep alone: an entry kept at [t2] was also
    kept at [t1]. *)
Theorem clean_cache_tick_compose (t1 t2 : Instant) (st : Tracker)
    (Ht : (t1 <= t2)%N) :
  clean_cache_tick t2 (clean_cache_tick t1 st) = clean_cache_tick t2 st.
Proof.
  assert (Hc : cache (clean_cache_tick t2 (clean_cache_tick t1 st))
               = cache (clean_cache_tick t2 st)).
  { apply map_eq. intros k. rewrite !CacheFacts.clean_cache_tick_lookup.
    destruct (cache st !! k) as [te|]; [|done].
    destruct (N.ltb_spec (elapsed t1 te) TIME_OUT);
      destruct (N.ltb_spec (elapsed t2 te) TIME_OUT); unfold elapsed in *; try done.
    lia. }
  destruct st. unfold clean_cache_tick, set_cache in *. simpl in *. by rewrite Hc.
Qed.

Lemma clean_cache_tick_compose_witness :
  let st := mkTracker [] (<[7 := 0%N]> (<[8 := 9000%N]> ∅)) [] true [] [] in
  (5000 <= 20000)%N /\
  cache (clean_cache_tick 20000 (clean_cache_tick 5000 st)) !! 8 = Some 9000%N /\
  clean_cache_tick 20000 (clean_cache_tick 5000 st) = clean_cache_tick 20000 st.
Proof.
  intros st. assert (Ht : (5000 <= 20000)%N) by lia.
  split; [exact Ht|]. split; [vm_compute; reflexivity|].
  exact (clean_cache_tick_compose 5000 20000 st Ht).
Defined.

Module ShapeFacts.
Import QueueFacts TrackerFacts.

Lemma keyed_filter f q : queue_keyed q -> queue_keyed (List.filter f q).
Proof. intros H k r Hin. apply filter_In in Hin as [Hin _]. by apply H. Qed.

Lemma keyed_clean closed now p g st :
  queue_keyed (queue st) -> queue_keyed (queue (clean_queue closed now p g st)).
Proof. rewrite clean_queue_queue. apply keyed_filter. Qed.

Lemma keyed_update k now q :
  queue_keyed q -> queue_keyed (Queue.update k (set_requested now) q).
Proof.
  intros H k' r Hin. unfold Queue.update in Hin. apply in_map_iff in Hin as [[k0 r0] [He Hin]].
  simpl in He. destruct (Nat.eqb k0 k); injection He as <- <-; [|by apply H].
  simpl. by apply H.
Qed.

Lemma keyed_push k v q :
  queue_keyed q -> req_hash v = k -> queue_keyed (Queue.push k v q).
Proof.
  intros H Hv k' r Hin. unfold Queue.push in Hin. apply in_app_or in Hin as [Hin|[He|[]]].
  - by apply H.
  - by injection He as <- <-.
Qed.

Lemma keyed_sweep fuel closed now st :
  queue_keyed (queue st) -> queue_keyed (queue (handler_sweep fuel closed now st)).
Proof.
  revert st. induction fuel as [|fuel IH]; intros st H; [done|].
  rewrite SweepFacts.handler_sweep_S.
  destruct (Queue.peek (queue st)) as [[k r]|]; [|done].
  destruct (req_requested r); [|done]. destruct (N.ltb _ _); [|done].
  by apply IH, keyed_clean.
Qed.

Lemma keyed_requester closed now outcome h st :
  queue_keyed (queue st) ->
  queue_keyed (queue (request_object_from_peer_internal closed now outcome h st)).
Proof.
  intros H. unfold request_object_from_peer_internal.
  destruct (Queue.get h (queue st)) as [r|]; [|done]. cbv beta iota zeta.
  pose proof (keyed_update h now (queue st) H) as Hu.
  destruct (closed _); [by apply keyed_clean|].
  destruct outcome; [done| |]; by apply keyed_clean.
Qed.

Lemma keyed_step st st' : step st st' -> queue_keyed (queue st) -> queue_keyed (queue st').
Proof.
  intros Hs H. destruct Hs.
  - unfold request_object_from_peer_with_or_get_notified.
    destruct (Queue.get h (queue st)); [done|].
    assert (Hp : queue_keyed (Queue.push h (Request_new h peer g) (queue st)))
      by (by apply keyed_push).
    by destruct (channel_open _).
  - unfold handle_object_response, Queue.remove.
    destruct (Queue.get h (queue st)); simpl; [by apply keyed_filter|].
    by destruct (bool_decide _).
  - by apply keyed_clean.
  - by apply keyed_requester.
  - done.
  - by apply keyed_sweep.
  - intros k r [].
  - done.
Qed.

(** The queue's keys after a step: a subsequence of the keys before,
    possibly followed by one fresh identity. *)
Lemma keys_clean_sublist closed now p g st :
  sublist (Queue.keys (queue (clean_queue closed now p g st))) (Queue.keys (queue st)).
Proof. rewrite clean_queue_queue. apply keys_filter_sublist. Qed.

Lemma keys_sweep_sublist fuel closed now st :
  sublist (Queue.keys (queue (handler_sweep fuel closed now st))) (Queue.keys (queue st)).
Proof.
  revert st. induction fuel as [|fuel IH]; intros st; [done|].
  rewrite SweepFacts.handler_sweep_S.
  destruct (Queue.peek (queue st)) as [[k r]|]; [|done].
  destruct (req_requested r); [|done]. destruct (N.ltb _ _); [|done].
  etrans; [apply IH|apply keys_clean_sublist].
Qed.

Lemma keys_requester_sublist closed now outcome h st :
  sublist (Queue.keys (queue (request_object_from_peer_internal closed now outcome h st)))
    (Queue.keys (queue st)).
Proof.
  unfold request_object_from_peer_internal.
  destruct (Queue.get h (queue st)) as [r|]; [|done]. cbv beta iota zeta.
  assert (Hu : forall st1, queue st1 = Queue.update h (set_requested now) (queue st) ->
            forall p g, sublist (Queue.keys (queue (clean_queue closed now p g st1)))
                          (Queue.keys (queue st))).
  { intros st1 Hq p g. etrans; [apply keys_clean_sublist|]. by rewrite Hq, keys_update. }
  destruct (closed _); [by apply Hu|].
  destruct outcome; [|by apply Hu|by apply Hu].
  simpl. by rewrite keys_update.
Qed.

End ShapeFacts.

(** X9: in every reachable state, each queued Request is stored under the
    identity of the object it asks for. *)
Theorem reachable_queue_keyed (st : Tracker) (Hr : reachable st) : queue_keyed (queue st).
Proof.
  induction Hr as [|st st' _ IH Hs]; [intros k r []|].
  by eapply ShapeFacts.keyed_step.
Qed.

Lemma reachable_queue_keyed_witness :
  let st := fst (request_object_from_peer_with_or_get_notified (mkPeer 2) 6 None
                   ObjectTracker_new) in
  reachable st /\ queue st = [(6, Request_new 6 (mkPeer 2) None)] /\ queue_keyed (queue st).
Proof.
  intros st.
  assert (Hr : reachable st)
    by (apply (reachable_step ObjectTracker_new); [apply reachable_new|apply step_request]).
  split; [exact Hr|]. split; [reflexivity|].
  exact (reachable_queue_keyed st Hr).
Defined.

(** X10: no step of the tracker reorders the queue: the identities queued
    after a step appear in the same relative order as before, followed
    by at most one newly pushed identity. *)
Theorem step_keeps_queue_order (st st' : Tracker) (Hs : step st st') :
  exists fresh, length fresh <= 1 /\
    sublist (Queue.keys (queue st')) (Queue.keys (queue st) ++ fresh).
Proof.
  assert (Hsub : sublist (Queue.keys (queue st')) (Queue.keys (queue st)) ->
                 exists fresh : list Hash, length fresh <= 1 /\
                   sublist (Queue.keys (queue st')) (Queue.keys (queue st) ++ fresh)).
  { intros H. exists []. rewrite app_nil_r. split; [simpl; lia|done]. }
  destruct Hs.
  - unfold request_object_from_peer_with_or_get_notified.
    destruct (Queue.get h (queue st)).
    { exists []. rewrite app_nil_r. split; [simpl; lia|done]. }
    exists [h]. split; [simpl; lia|].
    assert (Hk : Queue.keys (Queue.push h (Request_new h peer g) (queue st))
                 = Queue.keys (queue st) ++ [h])
      by (unfold Queue.keys, Queue.push; by rewrite map_app).
    destruct (channel_open _); simpl; by rewrite Hk.
  - apply Hsub. unfold handle_object_response, Queue.remove.
    destruct (Queue.get h (queue st)); simpl; [apply QueueFacts.keys_filter_sublist|].
    by destruct (bool_decide _).
  - apply Hsub, ShapeFacts.keys_clean_sublist.
  - apply Hsub, (ShapeFacts.keys_requester_sublist closed now outcome h (set_channel rest st)).
  - by apply Hsub.
  - apply Hsub, ShapeFacts.keys_sweep_sublist.
  - apply Hsub. simpl. apply sublist_nil_l.
  - by apply Hsub.
Qed.

Lemma step_keeps_queue_order_witness :
  let st := fst (request_object_from_peer_with_or_get_notified (mkPeer 2) 6 None
                   ObjectTracker_new) in
  let st' := fst (request_object_from_peer_with_or_get_notified (mkPeer 3) 8 None st) in
  step st st' /\ Queue.keys (queue st') = [6; 8] /\
  exists fresh, length fresh <= 1 /\
    sublist (Queue.keys (queue st')) (Queue.keys (queue st) ++ fresh).
Proof.
  intros st st'. assert (Hs : step st st') by apply step_request.
  split; [exact Hs|]. split; [reflexivity|].
  exact (step_keeps_queue_order st st' Hs).
Defined.

(** X11: when a dispatch fails (the peer is closed, its send fails or it
    exits), the cleanup spares every other queued Request whose peer
    differs from the failing one and is open, whose group is not the
    failing Request's group, and which is not past [TIME_OUT]. *)
Theorem requester_failure_spares_unrelated (closed : nat -> bool) (now : Instant)
    (outcome : SendOutcome) (h : Hash) (st : Tracker) (r : Request)
    (Hnd : NoDup (Queue.keys (queue st)))
    (Hg : Queue.get h (queue st) = Some r)
    (Hfail : closed (peer_id (req_peer r)) = true \/ outcome <> Sent)
    (k : Hash) (r' : Request) (Hin : In (k, r') (queue st))
    (Hpeer : peer_id (req_peer r') <> peer_id (req_peer r))
    (Hopen : closed (peer_id (req_peer r')) = false)
    (Hgroup : match req_group r, req_group r' with
              | Some g, Some g' => g <> g'
              | _, _ => True
              end)
    (Hfresh : match req_requested r' with
              | Some t => (elapsed now t <= TIME_OUT)%N
              | None => True
              end) :
  In (k, r') (queue (request_object_from_peer_internal closed now outcome h st)).
Proof.
  rewrite (ExtraFacts.dispatch_failed closed now outcome h st r Hg Hfail).
  rewrite TrackerFacts.clean_queue_queue. apply filter_In. split.
  - assert (Hk : Nat.eqb k h = false).
    { apply Nat.eqb_neq. intros ->.
      pose proof (QueueFacts.keys_unique _ h r r' Hnd (QueueFacts.get_Some_In _ _ _ Hg) Hin).
      subst. done. }
    pose proof (DispatchFacts.update_In h (set_requested now) (queue st) k r' Hin) as Hu.
    by rewrite Hk in Hu.
  - simpl. unfold clean_pred.
    assert (Hg' : match req_group r, req_group r' with
                  | Some failed_group, Some request_group => Nat.eqb failed_group request_group
                  | _, _ => false
                  end = false).
    { destruct (req_group r), (req_group r'); try done. by apply Nat.eqb_neq. }
    rewrite Hg', Hopen. rewrite (proj2 (Nat.eqb_neq _ _) Hpeer). simpl.
    destruct (req_requested r') as [t|]; [|done].
    apply N.ltb_ge in Hfresh. by rewrite Hfresh.
Qed.

Lemma requester_failure_spares_unrelated_witness :
  let q := [(1, mkRequest 1 (mkPeer 5) (Some 3) None);
            (2, mkRequest 2 (mkPeer 6) (Some 4) (Some 100%N));
            (3, mkRequest 3 (mkPeer 5) None None)] in
  let st := mkTracker q ∅ [] true [] [] in
  NoDup (Queue.keys (queue st)) /\
  Queue.get 1 (queue st) = Some (mkRequest 1 (mkPeer 5) (Some 3) None) /\
  (no_closed 5 = true \/ SendFailed <> Sent) /\
  Queue.keys (queue (request_object_from_peer_internal no_closed 1000%N SendFailed 1 st)) = [2] /\
  In (2, mkRequest 2 (mkPeer 6) (Some 4) (Some 100%N))
     (queue (request_object_from_peer_internal no_closed 1000%N SendFailed 1 st)).
Proof.
  intros q st.
  assert (Hnd : NoDup (Queue.keys (queue st))) by (vm_compute; apply (bool_decide_unpack _); vm_compute; reflexivity).
  assert (Hg : Queue.get 1 (queue st) = Some (mkRequest 1 (mkPeer 5) (Some 3) None))
    by reflexivity.
  assert (Hf : no_closed 5 = true \/ SendFailed <> Sent) by (right; discriminate).
  split; [exact Hnd|]. split; [exact Hg|]. split; [exact Hf|].
  split; [vm_compute; reflexivity|].
  apply (requester_failure_spares_unrelated no_closed 1000%N SendFailed 1 st _ Hnd Hg Hf).
  - simpl. tauto.
  - simpl. lia.
  - reflexivity.
  - cbn. lia.
  - vm_compute. intros Habs. discriminate Habs.
Defined.

(** X12: [ExpirableCache] round trip: after [insert] of an identity,
    [remove] reports it present and leaves the cache as it was without
    that identity, a second [remove] reports it absent, and [clean] keeps
    the entry exactly while less than [timeout] has elapsed since it was
    inserted. *)
Theorem expirable_cache_round_trip (t now timeout : Instant) (h : Hash) (c : gmap nat N) :
  snd (ExpirableCache.remove h (ExpirableCache.insert t h c)) = true /\
  fst (ExpirableCache.remove h (ExpirableCache.insert t h c)) = delete h c /\
  snd (ExpirableCache.remove h (fst (ExpirableCache.remove h (ExpirableCache.insert t h c))))
  = false /\
  ExpirableCache.clean now timeout (ExpirableCache.insert t h c) !! h
  = if N.ltb (elapsed now t) timeout then Some t else None.
Proof.
  unfold ExpirableCache.remove, ExpirableCache.insert. cbn [fst snd].
  split; [|split; [|split]].
  - rewrite lookup_insert_eq. by apply bool_decide_eq_true_2.
  - apply delete_insert_eq.
  - rewrite lookup_delete_eq. by apply bool_decide_eq_false_2, is_Some_None.
  - unfold ExpirableCache.clean. rewrite map_lookup_filter, lookup_insert_eq. simpl.
    destruct (N.ltb_spec (elapsed now t) timeout).
    + by rewrite option_guard_True.
    + rewrite option_guard_False; [done|]. simpl. lia.
Qed.
